(** * EventfulNetwork: a graph wrapper that notifies listeners

    A shallow embedding of [graph_notebook/network/EventfulNetwork.py]
    and the properties of its event-dispatch contract, of its label
    truncation and of its dictionary flattening.

    Python objects are modelled as follows.
    - A Python value is a term of [value]; a [dict] is an association
      list in insertion order whose keys are pairwise distinct, a
      callable is a handle [VFunc h].
    - A method of the class is a function in the monad [M]: it takes the
      state of the object and returns either an exception or a result,
      together with the state it leaves behind.  A raised exception does
      not undo the mutations made before it.
    - The base class [Network] and the listeners are not part of the
      file under verification: they are parameters of the development.
      A method of the base class works on the graph and may call the
      mutators of the object, which are the overridden ones. *)

From Stdlib Require Import ZArith Lia String Ascii List.
From stdpp Require Import base strings list gmap.

Set Warnings "-register-all".

Local Open Scope string_scope.
Local Open Scope list_scope.
Local Open Scope Z_scope.

(** ** Python values *)

Definition handle := nat.

Bind Scope nat_scope with handle.

Inductive value : Type :=
| VNone
| VBool (b : bool)
| VInt (z : Z)
| VStr (s : string)
| VList (l : list value)
| VDict (d : list (string * value))
| VFunc (f : handle).

Section value_induction.

Variable P : value -> Prop.
Hypothesis HNone : P VNone.
Hypothesis HBool : forall b, P (VBool b).
Hypothesis HInt : forall z, P (VInt z).
Hypothesis HStr : forall s, P (VStr s).
Hypothesis HList : forall l, Forall P l -> P (VList l).
Hypothesis HDict :
  forall d, Forall (fun kv : string * value => P (snd kv)) d -> P (VDict d).
Hypothesis HFunc : forall f, P (VFunc f).

(** Induction on a value, with the hypothesis for every element of a
    list and for every value of a dictionary. *)
Fixpoint value_nested_ind (v : value) : P v :=
  match v with
  | VNone => HNone
  | VBool b => HBool b
  | VInt z => HInt z
  | VStr s => HStr s
  | VList l =>
      HList l
        ((fix elements (l : list value) : Forall P l :=
            match l with
            | [] => @List.Forall_nil _ P
            | x :: l' => @List.Forall_cons _ P x l' (value_nested_ind x) (elements l')
            end) l)
  | VDict d =>
      HDict d
        ((fix entries (d : list (string * value)) : Forall (fun kv => P (snd kv)) d :=
            match d with
            | [] => @List.Forall_nil _ _
            | kv :: d' =>
                @List.Forall_cons _ _ kv d' (value_nested_ind (snd kv)) (entries d')
            end) d)
  | VFunc f => HFunc f
  end.

End value_induction.

(** [isinstance(v, collections.MutableMapping)], on a Python that has
    this alias of [collections.abc.MutableMapping] (3.9 and before). *)
Definition is_mapping (v : value) : bool :=
  match v with VDict _ => true | _ => false end.

(** [callable(v)] *)
Definition callable (v : value) : bool :=
  match v with VFunc _ => true | _ => false end.

(** ** Strings *)

Module Str.

(** [c in chars] *)
Fixpoint mem (c : ascii) (chars : string) : bool :=
  match chars with
  | EmptyString => false
  | String c' chars' => if Ascii.eqb c c' then true else mem c chars'
  end.

(** [s.lstrip(chars)] *)
Fixpoint lstrip (chars s : string) : string :=
  match s with
  | EmptyString => EmptyString
  | String c s' => if mem c chars then lstrip chars s' else s
  end.

(** [s.rstrip(chars)] *)
Definition rstrip (chars s : string) : string :=
  String.rev (lstrip chars (String.rev s)).

(** [s.strip(chars)] *)
Definition strip (chars s : string) : string :=
  rstrip chars (lstrip chars s).

(** The first [n] characters of [s], all of [s] when it is shorter. *)
Fixpoint take (n : nat) (s : string) : string :=
  match n, s with
  | S n', String c s' => String c (take n' s')
  | _, _ => EmptyString
  end.

(** [s[:stop]]: a negative [stop] counts from the end of [s], and the
    bound is clipped to the range of [s]. *)
Definition slice_to (s : string) (stop : Z) : string :=
  let len := Z.of_nat (String.length s) in
  let stop' := if stop <? 0 then Z.max 0 (stop + len) else Z.min stop len in
  take (Z.to_nat stop') s.

(** Every character of [s] is one of [chars]. *)
Fixpoint all_in (chars s : string) : bool :=
  match s with
  | EmptyString => true
  | String c s' => mem c chars && all_in chars s'
  end.

(** [s] begins with one of [chars]. *)
Definition starts_in (chars s : string) : bool :=
  match s with
  | EmptyString => false
  | String c _ => mem c chars
  end.

(** [s] ends with one of [chars]. *)
Definition ends_in (chars s : string) : bool :=
  starts_in chars (String.rev s).

End Str.

(** ** Label truncation *)

(** [strip_and_truncate_label(self, old_label, max_len)].  The label is a
    [str], on which [str(old_label)] is the identity. *)
Definition strip_and_truncate_label (old_label : string) (max_len : Z) : string :=
  let label := Str.strip "[]'" old_label in
  if Z.of_nat (String.length label) <=? max_len
  then label
  else Str.slice_to label (max_len - 3) +:+ "...".

(** ** Dictionaries *)

Abbreviation dict := (list (string * value)).

Module Dict.

(** [d[k] = v]: an existing key keeps its position and takes the new
    value, a new key goes to the end. *)
Fixpoint set (k : string) (v : value) (d : dict) : dict :=
  match d with
  | [] => [(k, v)]
  | (k', v') :: d' =>
      if String.eqb k k' then (k', v) :: d' else (k', v') :: set k v d'
  end.

(** [dict(items)], started from the dictionary [acc]. *)
Fixpoint update (acc : dict) (items : list (string * value)) : dict :=
  match items with
  | [] => acc
  | (k, v) :: items' => update (set k v acc) items'
  end.

(** [dict(items)] *)
Definition of_items (items : list (string * value)) : dict := update [] items.

(** [list(d.keys())] *)
Definition keys (d : dict) : list string := map fst d.

(** [d.get(k)], on a list of items the value of the first item with the
    key [k]. *)
Fixpoint get (k : string) (d : list (string * value)) : option value :=
  match d with
  | [] => None
  | (k', v) :: d' => if String.eqb k k' then Some v else get k d'
  end.

(** The invariant of a Python dictionary: no key occurs twice. *)
Definition wf (d : dict) : Prop := NoDup (keys d).

(** No value of the dictionary is itself a mapping. *)
Definition flat (d : dict) : Prop :=
  Forall (fun kv => is_mapping (snd kv) = false) d.

End Dict.

(** ** Flattening *)

(** [flatten(self, d, parent_key, sep)].  Rocq wants the recursion to be
    structural on the value that holds the mapping, so the body of the
    method is [flatten_value], taken at [VDict d]; the inner fixpoint is
    the loop over [d.items()].  The recursive call on a nested mapping
    is [self.flatten(v)]: it passes neither [new_key] nor [sep], so it
    runs with the defaults [parent_key=''] and [sep='_']. *)
Fixpoint flatten_value (d : value) (parent_key sep : string) {struct d} : dict :=
  match d with
  | VDict d =>
      Dict.of_items
        ((fix loop (items : list (string * value)) : list (string * value) :=
            match items with
            | [] => []
            | (k, v) :: rest =>
                let new_key :=
                  if String.eqb parent_key "" then k
                  else parent_key +:+ sep +:+ k in
                match v with
                | VDict _ => flatten_value v "" "_" ++ loop rest
                | _ => [(new_key, v)] ++ loop rest
                end
            end) d)
  | _ => []
  end.

Definition flatten (d : dict) (parent_key sep : string) : dict :=
  flatten_value (VDict d) parent_key sep.

(** The list [items] that the loop of [flatten] builds before it is
    turned into a dictionary. *)
Fixpoint flatten_items (parent_key sep : string) (items : list (string * value))
  : list (string * value) :=
  match items with
  | [] => []
  | (k, v) :: rest =>
      let new_key :=
        if String.eqb parent_key "" then k
        else parent_key +:+ sep +:+ k in
      match v with
      | VDict _ => flatten_value v "" "_" ++ flatten_items parent_key sep rest
      | _ => [(new_key, v)] ++ flatten_items parent_key sep rest
      end
  end.

(** ** Exceptions and events *)

(** An exception object: its class and its argument. *)
Inductive exn : Type := Exception (cls msg : string).

Definition ValueError (msg : string) : exn := Exception "ValueError" msg.
Definition KeyError (key : string) : exn := Exception "KeyError" key.

Definition EVENT_ADD_NODE : string := "add_node".
Definition EVENT_ADD_NODE_DATA : string := "add_node_data".
Definition EVENT_ADD_NODE_PROPERTY : string := "add_node_property".
Definition EVENT_ADD_EDGE : string := "add_edge".
Definition EVENT_ADD_EDGE_DATA : string := "add_edge_data".

Definition VALID_EVENTS : list string :=
  [EVENT_ADD_NODE; EVENT_ADD_NODE_DATA; EVENT_ADD_NODE_PROPERTY;
   EVENT_ADD_EDGE; EVENT_ADD_EDGE_DATA].

(** ** The listener registry *)

(** [self.callbacks]: the [defaultdict(list)] that [__init__] builds, or
    the mapping the caller hands to [__init__].  [default_factory] tells
    the two apart: a [defaultdict(list)] answers a missing key with a new
    empty list that it stores, a plain [dict] raises [KeyError]. *)
Record registry : Type := Registry {
  default_factory : bool;
  table : gmap string (list handle)
}.

(** [defaultdict(list)] *)
Definition defaultdict_list : registry := Registry true ∅.

(** The listeners of an event, none when the event has no entry. *)
Definition listeners (event : string) (r : registry) : list handle :=
  default [] (table r !! event).

(** One call [c(self, event_name, data)] made by the dispatcher. *)
Record invocation : Type := Invocation {
  inv_callback : handle;
  inv_event : string;
  inv_data : value
}.

(** The calls that pass [(self, event_name, data)] to each of [cs], in
    the order of [cs]. *)
Definition invocations (event_name : string) (data : value) (cs : list handle)
  : list invocation :=
  map (fun c => Invocation c event_name data) cs.

(** What a call leaves behind: an exception or a result, and the state
    after the call. *)
Definition outcome (S A : Type) : Type := (exn + A) * S.

(** ** The wrapped mutations and their table *)

(** A call of one of the five wrapped mutators.  An optional [data]
    that the caller leaves out is [VNone], the default of the
    signature. *)
Inductive mutation : Type :=
| AddNode (node_id data : value)
| AddNodeData (node_id data : value)
| AddNodeProperty (node_id key val : value)
| AddEdge (from_id to_id edge_id label data : value)
| AddEdgeData (from_id to_id edge_id data : value).

(** The event kind of each mutator. *)
Definition event_of (m : mutation) : string :=
  match m with
  | AddNode _ _ => EVENT_ADD_NODE
  | AddNodeData _ _ => EVENT_ADD_NODE_DATA
  | AddNodeProperty _ _ _ => EVENT_ADD_NODE_PROPERTY
  | AddEdge _ _ _ _ _ => EVENT_ADD_EDGE
  | AddEdgeData _ _ _ _ => EVENT_ADD_EDGE_DATA
  end.

(** The column "Payload fields" of the specification's table. *)
Definition payload_fields (m : mutation) : list string :=
  match m with
  | AddNode _ _ => ["node_id"; "data"]
  | AddNodeData _ _ => ["node_id"; "data"]
  | AddNodeProperty _ _ _ => ["node_id"; "key"; "value"]
  | AddEdge _ _ _ _ _ => ["from_id"; "to_id"; "edge_id"; "label"; "data"]
  | AddEdgeData _ _ _ _ => ["from_id"; "to_id"; "edge_id"; "data"]
  end.

(** The arguments of the call, in the order of the fields, where [data]
    is the mapping that the payload holds: the one handed to the base
    class, as the base class left it. *)
Definition arguments (m : mutation) (data : value) : list value :=
  match m with
  | AddNode node_id _ => [node_id; data]
  | AddNodeData node_id _ => [node_id; data]
  | AddNodeProperty node_id key val => [node_id; key; val]
  | AddEdge from_id to_id edge_id label _ =>
      [from_id; to_id; edge_id; label; data]
  | AddEdgeData from_id to_id edge_id _ =>
      [from_id; to_id; edge_id; data]
  end.

(** The payload of the specification: each field of the table with the
    argument of that name. *)
Definition payload_of (m : mutation) (data : value) : value :=
  VDict (combine (payload_fields m) (arguments m data)).

(** ** The base class and the listeners *)

(** The class inherits from [Network], which is not part of the file.
    What the body of a method of [Network] does, as far as the object
    can tell: it returns, and the mapping [data] that it was given is
    then as the method left it ([Done]); it raises ([Fail]); it changes
    the graph by [f] and goes on with [k w], where [w] is the graph as
    it found it ([Graph]); it calls the mutator [m] of the object, which
    is the overridden one, and goes on with [k r], where [r] is the
    outcome of that call ([Self]). *)
Inductive base_code (world : Type) : Type :=
| Done (data : value)
| Fail (e : exn)
| Graph (f : world -> world) (k : world -> base_code world)
| Self (m : mutation) (k : exn + unit -> base_code world).

Arguments Done {world} data.
Arguments Fail {world} e.
Arguments Graph {world} f k.
Arguments Self {world} m k.

(** The five mutators of the base class. *)
Class Network (world : Type) : Type := {
  super_add_node : value -> value -> base_code world;
  super_add_node_data : value -> value -> base_code world;
  super_add_node_property : value -> value -> value -> base_code world;
  super_add_edge :
    value -> value -> value -> value -> value -> base_code world;
  super_add_edge_data : value -> value -> value -> value -> base_code world
}.

(** The listeners, which are opaque: [call c event_name data] is what
    the callable with handle [c] does when it is applied to
    [(self, event_name, data)].  It may change the world outside the
    registry and it may raise; it takes [data] as a value and it leaves
    the registry of [self] alone. *)
Class Callables (world : Type) : Type := {
  call : handle -> string -> value -> world -> outcome world unit
}.


(** [RecursionError], which the interpreter raises when the calls are
    nested deeper than it allows. *)
Definition RecursionError : exn :=
  Exception "RecursionError" "maximum recursion depth exceeded".

(** ** The object and its methods *)

Declare Scope py_scope.

Section EventfulNetwork.

Context {world : Type} `{!Network world} `{!Callables world}.

(** The state of an [EventfulNetwork]: the world of the base class and
    of the listeners, the registry, and the history of the calls made
    to listeners, which the source does not keep and which is here to
    state what a dispatch did. *)
Record state : Type := State {
  outside : world;
  callbacks : registry;
  calls : list invocation
}.

Definition M (A : Type) : Type := state -> outcome state A.

Definition ret {A : Type} (a : A) : M A := fun s => (inr a, s).

Definition raise {A : Type} (e : exn) : M A := fun s => (inl e, s).

Definition bind {A B : Type} (m : M A) (k : A -> M B) : M B :=
  fun s =>
    match m s with
    | (inl e, s') => (inl e, s')
    | (inr a, s') => k a s'
    end.

(** One statement after another. *)
Notation "c1 ;; c2" := (bind c1 (fun _ => c2))
  (at level 100, c2 at level 200, right associativity) : py_scope.

Notation "x <- c1 ;; c2" := (bind c1 (fun x => c2))
  (at level 100, c1 at next level, c2 at level 200, right associativity)
  : py_scope.

Local Open Scope py_scope.

(** [for x in l: body(x)] *)
Fixpoint for_each {A : Type} (l : list A) (body : A -> M unit) : M unit :=
  match l with
  | [] => ret tt
  | x :: l' => body x ;; for_each l' body
  end.

(** [super().m(...)]: the body [code] of the method [m] of the base
    class, run on the object.  The mutators that the body calls are
    those of the object, [self]: they notify listeners.  The result is
    the mapping [data] as the body left it. *)
Fixpoint super (self : mutation -> M unit) (code : base_code world) : M value :=
  match code with
  | Done data => ret data
  | Fail e => raise e
  | Graph f k =>
      fun s =>
        super self (k (outside s))
          (State (f (outside s)) (callbacks s) (calls s))
  | Self m k =>
      fun s =>
        let (r, s') := self m s in
        super self (k r) s'
  end.

(** [c(self, event_name, data)] *)
Definition invoke (event_name : string) (data : value) (c : handle) : M unit :=
  fun s =>
    let (r, w) := call c event_name data (outside s) in
    (r, State w (callbacks s) (calls s ++ [Invocation c event_name data])).

(** [__init__(self, graph, callbacks)], where [w] is the world once the
    base class has been set up with [graph] or with a new
    [MultiDiGraph()]. *)
Definition init (w : world) (callbacks : option registry) : state :=
  let callbacks :=
    match callbacks with
    | None => defaultdict_list
    | Some callbacks => callbacks
    end in
  State w callbacks [].

(** [self.callbacks[event].append(callback)] *)
Definition callbacks_append (event : string) (c : handle) : M unit :=
  fun s =>
    let r := callbacks s in
    match table r !! event with
    | Some l =>
        (inr tt,
         State (outside s)
               (Registry (default_factory r) (<[event := l ++ [c]]> (table r)))
               (calls s))
    | None =>
        if default_factory r
        then (inr tt,
              State (outside s)
                    (Registry (default_factory r) (<[event := [c]]> (table r)))
                    (calls s))
        else raise (KeyError event) s
    end.

Definition register_callback (event : string) (callback : value) : M unit :=
  match callback with
  | VFunc c => callbacks_append event c
  | _ => raise (ValueError "callback must be callable.")
  end.

Definition register_universal_callback (callback : value) : M unit :=
  if negb (callable callback)
  then raise (ValueError "callback must be callable")
  else for_each VALID_EVENTS (fun event_name =>
         register_callback event_name callback).

Definition dispatch_callbacks (event_name : string) (data : value) : M unit :=
  fun s =>
    match table (callbacks s) !! event_name with
    | Some cs => for_each cs (invoke event_name data) s
    | None => ret tt s
    end.

(** [if data is None: data = {}] *)
Definition or_empty (data : value) : value :=
  match data with
  | VNone => VDict []
  | _ => data
  end.

(** The five mutators.  [self] stands for the mutators of the object as
    the base class finds them.  The payload holds the very mapping
    [data] that went to the base class, so that after [super] the name
    [data] stands for that mapping as the base class left it. *)
Definition add_node_property (self : mutation -> M unit)
    (node_id key val : value) : M unit :=
  super self (super_add_node_property node_id key val) ;;
  let data := VDict [("node_id", node_id); ("key", key); ("value", val)] in
  dispatch_callbacks EVENT_ADD_NODE_PROPERTY data.

Definition add_node (self : mutation -> M unit) (node_id data : value) : M unit :=
  let data := or_empty data in
  data <- super self (super_add_node node_id data) ;;
  let payload := VDict [("node_id", node_id); ("data", data)] in
  dispatch_callbacks EVENT_ADD_NODE payload.

Definition add_edge (self : mutation -> M unit)
    (from_id to_id edge_id label data : value) : M unit :=
  let data := or_empty data in
  data <- super self (super_add_edge from_id to_id edge_id label data) ;;
  let payload :=
    VDict [("from_id", from_id); ("to_id", to_id); ("edge_id", edge_id);
           ("label", label); ("data", data)] in
  dispatch_callbacks EVENT_ADD_EDGE payload.

Definition add_node_data (self : mutation -> M unit) (node_id data : value)
  : M unit :=
  let data := or_empty data in
  data <- super self (super_add_node_data node_id data) ;;
  let d := VDict [("node_id", node_id); ("data", data)] in
  dispatch_callbacks EVENT_ADD_NODE_DATA d.

Definition add_edge_data (self : mutation -> M unit)
    (from_id to_id edge_id data : value) : M unit :=
  let data := or_empty data in
  data <- super self (super_add_edge_data from_id to_id edge_id data) ;;
  let d :=
    VDict [("from_id", from_id); ("to_id", to_id); ("edge_id", edge_id);
           ("data", data)] in
  dispatch_callbacks EVENT_ADD_EDGE_DATA d.

(** The call [m] on the object, when the interpreter allows [depth]
    more nested calls of mutators: the mutators that the base class
    calls are run one level deeper. *)
Fixpoint perform (depth : nat) (m : mutation) : M unit :=
  match depth with
  | O => raise RecursionError
  | S depth' =>
      let self := perform depth' in
      match m with
      | AddNode node_id data => add_node self node_id data
      | AddNodeData node_id data => add_node_data self node_id data
      | AddNodeProperty node_id key val =>
          add_node_property self node_id key val
      | AddEdge from_id to_id edge_id label data =>
          add_edge self from_id to_id edge_id label data
      | AddEdgeData from_id to_id edge_id data =>
          add_edge_data self from_id to_id edge_id data
      end
  end.

(** The column "Base call forwarded" of the specification's table. *)
Definition forwarded (m : mutation) : base_code world :=
  match m with
  | AddNode node_id data => super_add_node node_id (or_empty data)
  | AddNodeData node_id data => super_add_node_data node_id (or_empty data)
  | AddNodeProperty node_id key val => super_add_node_property node_id key val
  | AddEdge from_id to_id edge_id label data =>
      super_add_edge from_id to_id edge_id label (or_empty data)
  | AddEdgeData from_id to_id edge_id data =>
      super_add_edge_data from_id to_id edge_id (or_empty data)
  end.


(** What the specification says a dispatch is: the listeners [cs]
    applied one after the other to [(self, event_name, data)], each to
    the world that the one before it left, up to the first that
    raises. *)
Fixpoint apply_all (cs : list handle) (event_name : string) (data : value)
    (w : world) : outcome world unit :=
  match cs with
  | [] => (inr tt, w)
  | c :: cs' =>
      match call c event_name data w with
      | (inl e, w') => (inl e, w')
      | (inr _, w') => apply_all cs' event_name data w'
      end
  end.


End EventfulNetwork.

Arguments state world : clear implicits.
Arguments M world A : clear implicits.

(** The registry can take a listener for [event]: it makes the entry
    itself or it has it already. *)
Definition accepts (event : string) (r : registry) : Prop :=
  default_factory r = true \/ is_Some (table r !! event).


(** ** A sample base class and sample listeners *)

(** A small instance of the parameters, to run the methods on.  The
    world is the number of nodes of the graph.  Properties and edges
    can be added only once there is a node; data for a node, when there
    is no node yet, adds the node first, through the object's own
    [add_node]; an edge writes its label into [data].  A listener with
    an even handle returns and one with an odd handle raises. *)
Module Sample.

Definition requires (n : nat) (data : value) : base_code nat :=
  Graph (fun w => w)
    (fun w => if (n <=? w)%nat then Done data else Fail (KeyError "node")).

(** [data['label'] = label] *)
Definition with_label (label data : value) : value :=
  match data with
  | VDict d => VDict (Dict.set "label" label d)
  | _ => data
  end.

#[global] Instance network : Network nat := {|
  super_add_node _ data := Graph S (fun _ => Done data);
  super_add_node_data node_id data :=
    Graph (fun w => w)
      (fun w =>
         if (1 <=? w)%nat then Done data
         else Self (AddNode node_id VNone)
                (fun r =>
                   match r with
                   | inl e => Fail e
                   | inr _ => Done data
                   end));
  super_add_node_property _ _ _ := requires 1 VNone;
  super_add_edge _ _ _ label data := requires 1 (with_label label data);
  super_add_edge_data _ _ _ data := requires 1 data
|}.

#[global] Instance callables : Callables nat := {|
  call c _ _ w :=
    if Nat.even c then (inr tt, w)
    else (inl (Exception "RuntimeError" "listener"), w)
|}.

(** [EventfulNetwork()] on an empty graph. *)
Definition fresh : state nat := init 0%nat None.

(** [EventfulNetwork(callbacks={})] on an empty graph. *)
Definition plain : state nat := init 0%nat (Some (Registry false ∅)).

(** The object that a method call leaves behind. *)
Definition after (call : M nat unit) (s : state nat) : state nat := snd (call s).

(** The listener 0 registered twice for [add_node]. *)
Definition twice : state nat :=
  after (register_callback EVENT_ADD_NODE (VFunc 0%nat))
    (after (register_callback EVENT_ADD_NODE (VFunc 0%nat)) fresh).

(** The listeners 0, 1 and 2 registered for [add_node], in this order. *)
Definition three : state nat :=
  after (register_callback EVENT_ADD_NODE (VFunc 2%nat))
    (after (register_callback EVENT_ADD_NODE (VFunc 1%nat))
       (after (register_callback EVENT_ADD_NODE (VFunc 0%nat)) fresh)).




End Sample.

(** ** Sequences of method calls *)

(** A call of a public method of the object. *)
Inductive operation : Type :=
| OpRegister (event : string) (callback : value)
| OpRegisterUniversal (callback : value)
| OpDispatch (event_name : string) (data : value)
| OpMutate (m : mutation).

Section Operations.

Context {world : Type} `{!Network world} `{!Callables world}.

Definition run (depth : nat) (op : operation) : M world unit :=
  match op with
  | OpRegister event callback => register_callback event callback
  | OpRegisterUniversal callback => register_universal_callback callback
  | OpDispatch event_name data => dispatch_callbacks event_name data
  | OpMutate m => perform depth m
  end.

(** One method call takes the object from [s] to [s'], whether the call
    returns or raises. *)
Definition step (s s' : state world) : Prop :=
  exists (depth : nat) (op : operation), s' = snd (run depth op s).

(** [s'] has all that [s] has: the same kind of registry, for every
    event the listeners of [s] followed by further ones, and the calls
    of [s] followed by further ones. *)
Definition extends (s s' : state world) : Prop :=
  default_factory (callbacks s') = default_factory (callbacks s) /\
  (forall event,
      listeners event (callbacks s) `prefix_of` listeners event (callbacks s')) /\
  (forall event,
      is_Some (table (callbacks s) !! event) ->
      is_Some (table (callbacks s') !! event)) /\
  calls s `prefix_of` calls s'.

(** The registry is the same. *)
Definition same_registry : relation (state world) :=
  fun s s' => callbacks s' = callbacks s.

(** The world and the history of calls are the same. *)
Definition silent : relation (state world) :=
  fun s s' => outside s' = outside s /\ calls s' = calls s.

End Operations.

(** The plain dictionary [{'add_node': []}] as a registry. *)
Definition only_add_node : registry :=
  Registry false {[EVENT_ADD_NODE := []]}.

(** ** The statements of the specification *)

(** [result] is [label] cut down to [n] characters, followed by the
    ellipsis. *)
Definition truncated_to (n : Z) (label result : string) : Prop :=
  exists kept dropped : string,
    label = kept +:+ dropped /\
    Z.of_nat (String.length kept) = n /\
    result = kept +:+ "...".

(** Label truncation as the specification words it: a stripped label no
    longer than the maximum is returned as it is, a longer one is
    truncated to [max_len - 3] characters and gets the ellipsis. *)
Definition label_truncation_spec (old_label : string) (max_len : Z) : Prop :=
  let label := Str.strip "[]'" old_label in
  let result := strip_and_truncate_label old_label max_len in
  if Z.of_nat (String.length label) <=? max_len
  then result = label
  else truncated_to (max_len - 3) label result.

(** The nested mapping of the specification's example and what the
    specification says its flattening is. *)
Definition nested_example : dict :=
  [("a", VDict [("b", VInt 1); ("c", VInt 2)]); ("d", VInt 3)].

Definition nested_example_flattened : dict :=
  [("a_b", VInt 1); ("a_c", VInt 2); ("d", VInt 3)].

(** * Properties *)

(** ** Strings *)

Module StrFacts.
Import Str.

Lemma app_cons (c : ascii) (s t : string) :
  String c s +:+ t = String c (s +:+ t).
Proof. reflexivity. Qed.

Lemma app_nil_l (s : string) : "" +:+ s = s.
Proof. reflexivity. Qed.

Lemma app_nil_r (s : string) : s +:+ "" = s.
Proof.
  induction s as [|c s IH]; [reflexivity|].
  rewrite app_cons. now rewrite IH.
Qed.

Lemma app_assoc (s t u : string) : (s +:+ t) +:+ u = s +:+ (t +:+ u).
Proof.
  induction s as [|c s IH]; [reflexivity|].
  rewrite !app_cons. now rewrite IH.
Qed.

Lemma length_app (s t : string) :
  String.length (s +:+ t) = (String.length s + String.length t)%nat.
Proof.
  induction s as [|c s IH]; [reflexivity|].
  rewrite app_cons. simpl. now rewrite IH.
Qed.

Lemma rev_app_spec (s t : string) : String.rev_app s t = String.rev s +:+ t.
Proof.
  revert t. induction s as [|c s IH]; intros t; [reflexivity|].
  unfold String.rev. simpl. rewrite (IH (String c t)), (IH (String c "")).
  now rewrite app_assoc.
Qed.

Lemma rev_cons (c : ascii) (s : string) :
  String.rev (String c s) = String.rev s +:+ String c "".
Proof. unfold String.rev at 1. simpl. apply rev_app_spec. Qed.

Lemma rev_app (s t : string) :
  String.rev (s +:+ t) = String.rev t +:+ String.rev s.
Proof.
  induction s as [|c s IH].
  - now rewrite app_nil_l, app_nil_r.
  - rewrite app_cons, !rev_cons, IH. apply app_assoc.
Qed.

Lemma rev_involutive (s : string) : String.rev (String.rev s) = s.
Proof.
  induction s as [|c s IH]; [reflexivity|].
  rewrite rev_cons, rev_app, IH. reflexivity.
Qed.

Lemma all_in_app (chars s t : string) :
  all_in chars (s +:+ t) = all_in chars s && all_in chars t.
Proof.
  induction s as [|c s IH]; [reflexivity|].
  rewrite app_cons. simpl. rewrite IH. now rewrite andb_assoc.
Qed.

Lemma all_in_rev (chars s : string) :
  all_in chars (String.rev s) = all_in chars s.
Proof.
  induction s as [|c s IH]; [reflexivity|].
  rewrite rev_cons, all_in_app, IH. simpl.
  rewrite andb_true_r. apply andb_comm.
Qed.

(** [lstrip] removes a prefix made of [chars] and stops at the first
    character that is not one of them. *)
Lemma lstrip_spec (chars s : string) :
  exists pre : string,
    s = pre +:+ lstrip chars s /\
    all_in chars pre = true /\
    starts_in chars (lstrip chars s) = false.
Proof.
  induction s as [|c s (pre & Hs & Hpre & Hstart)].
  - exists "". now split.
  - simpl. destruct (mem c chars) eqn:Hc.
    + exists (String c pre). rewrite app_cons, <- Hs. simpl.
      now rewrite Hc, Hpre.
    + exists "". simpl. now rewrite Hc.
Qed.

Lemma rstrip_spec (chars s : string) :
  exists post : string,
    s = rstrip chars s +:+ post /\
    all_in chars post = true /\
    ends_in chars (rstrip chars s) = false.
Proof.
  unfold rstrip, ends_in.
  destruct (lstrip_spec chars (String.rev s)) as (pre & Hs & Hpre & Hstart).
  exists (String.rev pre). split; [|split].
  - rewrite <- rev_app, <- Hs. now rewrite rev_involutive.
  - now rewrite all_in_rev.
  - now rewrite rev_involutive.
Qed.

Lemma starts_in_app_l (chars s post : string) :
  starts_in chars (s +:+ post) = false ->
  all_in chars post = true ->
  starts_in chars s = false.
Proof.
  destruct s as [|c s]; [reflexivity|]. now rewrite app_cons.
Qed.

(** [strip] removes a prefix and a suffix made of [chars], and what it
    returns neither begins nor ends with one of them. *)
Lemma strip_spec (chars s : string) :
  exists pre post : string,
    s = pre +:+ strip chars s +:+ post /\
    all_in chars pre = true /\
    all_in chars post = true /\
    starts_in chars (strip chars s) = false /\
    ends_in chars (strip chars s) = false.
Proof.
  unfold strip.
  destruct (lstrip_spec chars s) as (pre & Hs & Hpre & Hstart).
  destruct (rstrip_spec chars (lstrip chars s)) as (post & Hl & Hpost & Hend).
  exists pre, post. repeat split; try assumption.
  - now rewrite <- Hl.
  - rewrite Hl in Hstart. eapply starts_in_app_l; eassumption.
Qed.

Lemma length_take (n : nat) (s : string) :
  (n <= String.length s)%nat -> String.length (take n s) = n.
Proof.
  revert s. induction n as [|n IH]; intros [|c s] Hn; simpl in *;
    try reflexivity; try lia.
  rewrite IH; [reflexivity | lia].
Qed.

Lemma take_split (n : nat) (s : string) :
  exists dropped : string, s = take n s +:+ dropped.
Proof.
  revert s. induction n as [|n IH]; intros s.
  - exists s. now destruct s.
  - destruct s as [|c s]; [now exists ""|].
    destruct (IH s) as (dropped & Hs). exists dropped.
    simpl. rewrite app_cons. now rewrite <- Hs.
Qed.

(** [s[:stop]] for a bound within the range of [s]. *)
Lemma slice_to_in_range (s : string) (stop : Z) :
  0 <= stop <= Z.of_nat (String.length s) ->
  exists dropped : string,
    s = slice_to s stop +:+ dropped /\
    Z.of_nat (String.length (slice_to s stop)) = stop.
Proof.
  intros Hstop. unfold slice_to.
  destruct (Z.ltb_spec stop 0) as [?|_]; [lia|].
  rewrite Z.min_l by lia.
  destruct (take_split (Z.to_nat stop) s) as (dropped & Hs).
  exists dropped. split; [assumption|].
  rewrite length_take by lia. lia.
Qed.

End StrFacts.

(** ** Dictionaries *)

Module DictFacts.
Import Dict.

Lemma keys_set_old (k : string) (v : value) (d : dict) :
  In k (keys d) -> keys (set k v d) = keys d.
Proof.
  induction d as [|[k' v'] d IH]; simpl; [tauto|].
  intros Hk. destruct (String.eqb_spec k k') as [->|Hne]; [reflexivity|].
  simpl. f_equal. apply IH. destruct Hk as [Hk|Hk]; [congruence | exact Hk].
Qed.

Lemma set_new (k : string) (v : value) (d : dict) :
  ~ In k (keys d) -> set k v d = d ++ [(k, v)].
Proof.
  induction d as [|[k' v'] d IH]; simpl; [reflexivity|].
  intros Hk. destruct (String.eqb_spec k k') as [->|Hne]; [tauto|].
  f_equal. apply IH. tauto.
Qed.

Lemma set_wf (k : string) (v : value) (d : dict) : wf d -> wf (set k v d).
Proof.
  unfold wf. intros Hd. destruct (in_dec string_dec k (keys d)) as [Hk|Hk].
  - now rewrite keys_set_old.
  - rewrite set_new by assumption. unfold keys.
    rewrite map_app. simpl. apply NoDup_app. repeat split.
    + exact Hd.
    + intros x Hx Hx'%list_elem_of_In. apply list_elem_of_In in Hx.
      destruct Hx' as [<-|[]]. tauto.
    + apply NoDup_singleton.
Qed.

Lemma update_wf (acc : dict) (items : list (string * value)) :
  wf acc -> wf (update acc items).
Proof.
  revert acc. induction items as [|[k v] items IH]; intros acc Hacc; simpl.
  - exact Hacc.
  - apply IH, set_wf, Hacc.
Qed.

(** [dict(items)] is a dictionary, whatever [items] is. *)
Lemma of_items_wf (items : list (string * value)) : wf (of_items items).
Proof. apply update_wf. constructor. Qed.

Lemma update_new (acc : dict) (items : list (string * value)) :
  NoDup (keys acc ++ map fst items) -> update acc items = acc ++ items.
Proof.
  revert acc. induction items as [|[k v] items IH]; intros acc Hnd; simpl.
  - now rewrite app_nil_r.
  - simpl in Hnd. rewrite set_new.
    + rewrite IH.
      * now rewrite <- app_assoc.
      * unfold keys. rewrite map_app. simpl. rewrite <- app_assoc. exact Hnd.
    + apply NoDup_app in Hnd as (_ & Hdisj & _).
      intros Hk%list_elem_of_In. apply (Hdisj k Hk). left.
Qed.

(** [dict(d.items())] is [d]. *)
Lemma of_items_wf_id (d : dict) : wf d -> of_items d = d.
Proof. intros Hd. unfold of_items. now rewrite update_new. Qed.

Section values.

Variable Q : value -> Prop.

Lemma set_values (k : string) (v : value) (d : dict) :
  Q v -> Forall (fun kv => Q (snd kv)) d ->
  Forall (fun kv => Q (snd kv)) (set k v d).
Proof.
  intros Hv. induction 1 as [|[k' v'] d Hkv Hd IH]; simpl.
  - now repeat constructor.
  - destruct (String.eqb k k'); constructor; assumption.
Qed.

Lemma update_values (acc : dict) (items : list (string * value)) :
  Forall (fun kv => Q (snd kv)) acc ->
  Forall (fun kv => Q (snd kv)) items ->
  Forall (fun kv => Q (snd kv)) (update acc items).
Proof.
  intros Hacc Hitems. revert acc Hacc.
  induction Hitems as [|[k v] items Hv Hitems IH]; intros acc Hacc; simpl.
  - exact Hacc.
  - apply IH, set_values; assumption.
Qed.

End values.

(** [dict(items)] is flat when no value among [items] is a mapping. *)
Lemma of_items_flat (items : list (string * value)) :
  flat items -> flat (of_items items).
Proof.
  intros Hitems.
  apply (update_values (fun v => is_mapping v = false));
    [constructor | exact Hitems].
Qed.

End DictFacts.

(** ** Flattening *)

Lemma flatten_unfold (d : dict) (parent_key sep : string) :
  flatten d parent_key sep = Dict.of_items (flatten_items parent_key sep d).
Proof.
  unfold flatten. simpl. f_equal.
  induction d as [|[k v] d IH]; [reflexivity|].
  simpl. rewrite IH. reflexivity.
Qed.

Lemma flatten_value_flat (v : value) (parent_key sep : string) :
  Dict.flat (flatten_value v parent_key sep).
Proof.
  revert parent_key sep.
  induction v as [| | | | |d IH|] using value_nested_ind;
    intros parent_key sep; try (now constructor).
  change (Dict.flat (flatten d parent_key sep)).
  rewrite flatten_unfold. apply DictFacts.of_items_flat.
  induction IH as [|[k v] d Hv _ IHd]; simpl; [constructor|].
  destruct v; simpl; try (constructor; [reflexivity | exact IHd]).
  apply Forall_app. split; [apply (Hv "" "_") | exact IHd].
Qed.

Lemma flatten_items_flat_id (sep : string) (d : dict) :
  Dict.flat d -> flatten_items "" sep d = d.
Proof.
  induction 1 as [|[k v] d Hv _ IH]; [reflexivity|].
  simpl in *. rewrite IH. now destruct v.
Qed.

(** X16.  A nested mapping loses its own key: whatever [parent_key] and
    [sep] are, the entries below [k] come out under the names they have
    in the nested mapping. *)
Lemma flatten_nested_key_dropped (k : string) (d : dict) (parent_key sep : string) :
  flatten [(k, VDict d)] parent_key sep = flatten d "" "_".
Proof.
  rewrite (flatten_unfold [(k, VDict d)]). cbn [flatten_items].
  change (flatten_value (VDict d) "" "_") with (flatten d "" "_").
  rewrite app_nil_r. apply DictFacts.of_items_wf_id.
  rewrite flatten_unfold. apply DictFacts.of_items_wf.
Qed.

(** C4.  On the specification's example [{"a": {"b": 1, "c": 2}, "d": 3}]
    the method returns [{"b": 1, "c": 2, "d": 3}]: the keys of the nested
    mapping are not joined to the key ["a"] of their parent, so the result
    is not the [{"a_b": 1, "a_c": 2, "d": 3}] of the specification. *)
Theorem flatten_nested_example :
  flatten nested_example "" "_" = [("b", VInt 1); ("c", VInt 2); ("d", VInt 3)] /\
  flatten nested_example "" "_" <> nested_example_flattened.
Proof. split; [reflexivity | discriminate]. Qed.

(** C10.  Flattening, with the default empty [parent_key], a dictionary
    none of whose values is a mapping returns the dictionary itself; and
    flattening the result of a flattening returns it unchanged. *)
Theorem flatten_flat_identity :
  (forall (d : dict) (sep : string),
      Dict.wf d -> Dict.flat d -> flatten d "" sep = d) /\
  (forall (d : dict) (parent_key sep sep' : string),
      flatten (flatten d parent_key sep) "" sep' = flatten d parent_key sep).
Proof.
  assert (Hid : forall (d : dict) (sep : string),
             Dict.wf d -> Dict.flat d -> flatten d "" sep = d).
  { intros d sep Hwf Hflat.
    rewrite flatten_unfold, flatten_items_flat_id by exact Hflat.
    apply DictFacts.of_items_wf_id, Hwf. }
  split; [exact Hid|].
  intros d parent_key sep sep'. apply Hid.
  - rewrite flatten_unfold. apply DictFacts.of_items_wf.
  - apply flatten_value_flat.
Qed.

Lemma flatten_flat_identity_witness :
  flatten [("x", VInt 1); ("y", VStr "z")] "" "_" = [("x", VInt 1); ("y", VStr "z")].
Proof.
  apply (proj1 flatten_flat_identity).
  - unfold Dict.wf. apply (bool_decide_unpack _). vm_compute. reflexivity.
  - unfold Dict.flat. repeat constructor.
Defined.

(** ** Label truncation *)

(** C8, as the specification states it, fails for a maximum below 3:
    with the label ["abcdef"] and the maximum 2 the slice [label[:-1]]
    drops one character only, and the result ["abcde..."] is neither the
    label cut down to [2 - 3] characters nor the ellipsis alone. *)
Lemma label_truncation_below_three :
  strip_and_truncate_label "abcdef" 2 = "abcde..." /\
  strip_and_truncate_label "abcdef" 2 <> "..." /\
  ~ label_truncation_spec "abcdef" 2.
Proof.
  split; [reflexivity|]. split; [discriminate|].
  unfold label_truncation_spec. simpl.
  intros (kept & dropped & _ & Hlen & _). lia.
Qed.

(** C8 (amended).  The label is stripped of its leading and trailing
    square brackets and single quotes.  A stripped label no
    longer than the maximum is returned as it is.  A longer one, when the
    maximum is at least 3, is truncated to [max_len - 3] characters and
    gets ["..."] appended.  ["[verylongname]"] with the maximum 10 gives
    ["verylon..."]. *)
Theorem label_truncation (old_label : string) (max_len : Z) :
  let label := Str.strip "[]'" old_label in
  let result := strip_and_truncate_label old_label max_len in
  (exists pre post : string,
      old_label = pre +:+ label +:+ post /\
      Str.all_in "[]'" pre = true /\
      Str.all_in "[]'" post = true /\
      Str.starts_in "[]'" label = false /\
      Str.ends_in "[]'" label = false) /\
  (Z.of_nat (String.length label) <= max_len -> result = label) /\
  (max_len < Z.of_nat (String.length label) -> 3 <= max_len ->
   truncated_to (max_len - 3) label result) /\
  strip_and_truncate_label "[verylongname]" 10 = "verylon...".
Proof.
  intros label result. split; [apply StrFacts.strip_spec|].
  subst result. unfold strip_and_truncate_label. fold label.
  split; [|split; [|reflexivity]].
  - intros Hle. destruct (Z.leb_spec (Z.of_nat (String.length label)) max_len);
      [reflexivity | lia].
  - intros Hlt Hmax.
    destruct (Z.leb_spec (Z.of_nat (String.length label)) max_len); [lia|].
    destruct (StrFacts.slice_to_in_range label (max_len - 3)) as (dropped & Hl & Hlen);
      [lia|].
    exists (Str.slice_to label (max_len - 3)), dropped. now repeat split.
Qed.

Lemma label_truncation_witness :
  truncated_to 2 "Person" (strip_and_truncate_label "['Person']" 5).
Proof.
  apply (proj1 (proj2 (proj2 (label_truncation "['Person']" 5)))).
  - simpl. lia.
  - lia.
Defined.

(** ** The monad *)

Section Events.

Context {world : Type} `{!Network world} `{!Callables world}.

Implicit Types (s : state world) (c h : handle) (cs : list handle).
Implicit Types (m : mutation) (e : exn) (data : value).

Lemma state_eta s : State (outside s) (callbacks s) (calls s) = s.
Proof. now destruct s. Qed.

Lemma for_each_app {A : Type} (l1 l2 : list A) (body : A -> M world unit) s :
  for_each (l1 ++ l2) body s
  = bind (for_each l1 body) (fun _ => for_each l2 body) s.
Proof.
  revert s. induction l1 as [|x l1 IH]; intros s; [reflexivity|].
  simpl. unfold bind. destruct (body x s) as [[e|[]] s1]; [reflexivity|].
  apply IH.
Qed.

(** ** Dispatch *)

(** A loop over listeners that comes to its end has called each of them
    once, in the order of the list, and has left the registry alone. *)
Lemma for_each_invoke_returns cs event_name data s s' :
  for_each cs (invoke event_name data) s = (inr tt, s') ->
  calls s' = calls s ++ invocations event_name data cs /\
  callbacks s' = callbacks s.
Proof.
  revert s. induction cs as [|c cs IH]; intros s; simpl.
  - intros [= <-]. now rewrite app_nil_r.
  - unfold bind, invoke at 1.
    destruct (call c event_name data (outside s)) as [[e|[]] w]; [discriminate|].
    intros [Hcalls Hreg]%IH. simpl in *.
    now rewrite Hcalls, <- app_assoc.
Qed.

(** A loop over listeners stops at the first one that raises. *)
Lemma for_each_invoke_raises pre c post event_name data s s1 e w :
  for_each pre (invoke event_name data) s = (inr tt, s1) ->
  call c event_name data (outside s1) = (inl e, w) ->
  for_each (pre ++ c :: post) (invoke event_name data) s
  = (inl e,
     State w (callbacks s) (calls s ++ invocations event_name data (pre ++ [c]))).
Proof.
  intros Hpre Hc. rewrite for_each_app. unfold bind at 1. rewrite Hpre.
  apply for_each_invoke_returns in Hpre as [Hcalls Hreg].
  simpl. unfold bind, invoke at 1. rewrite Hc, Hcalls, Hreg.
  unfold invocations. now rewrite map_app, app_assoc.
Qed.

Lemma dispatch_returns event_name data s s' :
  dispatch_callbacks event_name data s = (inr tt, s') ->
  calls s' = calls s
             ++ invocations event_name data (listeners event_name (callbacks s)) /\
  callbacks s' = callbacks s.
Proof.
  unfold dispatch_callbacks, listeners.
  destruct (table (callbacks s) !! event_name) as [cs|]; simpl.
  - apply for_each_invoke_returns.
  - intros [= <-]. now rewrite app_nil_r.
Qed.

(** Whatever its outcome, a loop over listeners has called the first
    few of them, in the order of the list. *)
Lemma for_each_invoke_prefix cs event_name data s :
  exists n : nat,
    calls (snd (for_each cs (invoke event_name data) s))
    = calls s ++ invocations event_name data (take n cs).
Proof.
  revert s. induction cs as [|c cs IH]; intros s.
  - exists 0%nat. simpl. now rewrite app_nil_r.
  - simpl. unfold bind, invoke at 1.
    destruct (call c event_name data (outside s)) as [[e|[]] w].
    + exists 1%nat. reflexivity.
    + match goal with |- context [for_each cs _ ?t] => destruct (IH t) as [n Hn] end.
      exists (S n). rewrite Hn. simpl. now rewrite <- app_assoc.
Qed.

Lemma dispatch_prefix event_name data s :
  exists n : nat,
    calls (snd (dispatch_callbacks event_name data s))
    = calls s
      ++ invocations event_name data
           (take n (listeners event_name (callbacks s))).
Proof.
  unfold dispatch_callbacks, listeners.
  destruct (table (callbacks s) !! event_name) as [cs|]; simpl.
  - apply for_each_invoke_prefix.
  - exists 0%nat. now rewrite app_nil_r.
Qed.

Lemma dispatch_nobody event_name data s :
  listeners event_name (callbacks s) = [] ->
  dispatch_callbacks event_name data s = (inr tt, s).
Proof.
  unfold dispatch_callbacks, listeners.
  destruct (table (callbacks s) !! event_name) as [cs|]; simpl;
    [intros ->|]; reflexivity.
Qed.

(** ** Registration *)

Lemma callbacks_append_returns event c s s' :
  callbacks_append event c s = (inr tt, s') ->
  s' = State (outside s)
             (Registry (default_factory (callbacks s))
                (<[event := listeners event (callbacks s) ++ [c]]>
                   (table (callbacks s))))
             (calls s).
Proof.
  unfold callbacks_append, listeners.
  destruct (table (callbacks s) !! event) as [l|]; simpl.
  - now intros [= <-].
  - destruct (default_factory (callbacks s)); [now intros [= <-] | discriminate].
Qed.

Lemma callbacks_append_accepted event c s :
  accepts event (callbacks s) ->
  exists s', callbacks_append event c s = (inr tt, s').
Proof.
  unfold accepts, callbacks_append.
  destruct (table (callbacks s) !! event) as [l|]; [eauto|].
  intros [-> | [l Hl]]; [eauto | discriminate].
Qed.

Lemma listeners_insert event event' l (r : registry) :
  listeners event' (Registry (default_factory r) (<[event := l]> (table r)))
  = if decide (event = event') then l else listeners event' r.
Proof.
  unfold listeners. simpl. rewrite lookup_insert.
  now destruct (decide (event = event')).
Qed.

Lemma accepts_insert event event' l (r : registry) :
  accepts event' r ->
  accepts event' (Registry (default_factory r) (<[event := l]> (table r))).
Proof.
  unfold accepts. simpl. intros [Hd|Hl]; [now left | right].
  rewrite lookup_insert. now destruct (decide (event = event')).
Qed.

(** Registering [h] for each of the distinct events [events]. *)
Lemma register_each events h s :
  NoDup events ->
  (forall event, In event events -> accepts event (callbacks s)) ->
  exists s',
    for_each events (fun event => register_callback event (VFunc h)) s
    = (inr tt, s') /\
    outside s' = outside s /\
    calls s' = calls s /\
    default_factory (callbacks s') = default_factory (callbacks s) /\
    (forall event, In event events ->
       table (callbacks s') !! event
       = Some (listeners event (callbacks s) ++ [h])) /\
    (forall event, ~ In event events ->
       table (callbacks s') !! event = table (callbacks s) !! event).
Proof.
  revert s. induction events as [|ev events IH]; intros s Hnd Hacc.
  - exists s. now repeat split.
  - apply NoDup_cons in Hnd as [Hev Hnd].
    destruct (callbacks_append_accepted ev h s) as [s1 Hs1];
      [apply Hacc; now left|].
    pose proof (callbacks_append_returns _ _ _ _ Hs1) as ->.
    match type of Hs1 with _ = (_, ?t) => set (s1 := t) in * end.
    destruct (IH s1 Hnd) as (s' & Hrun & Hout & Hcalls & Hdef & Hin & Hnotin).
    { intros event Hin. apply accepts_insert, Hacc. now right. }
    exists s'. simpl. unfold bind. rewrite Hs1.
    repeat split; try assumption.
    + intros event [<-|Hevent].
      * rewrite Hnotin by (now rewrite <- list_elem_of_In).
        subst s1. simpl. now rewrite lookup_insert_eq.
      * rewrite Hin by exact Hevent. subst s1. simpl.
        rewrite listeners_insert, decide_False; [reflexivity|].
        intros <-. now apply list_elem_of_In in Hevent.
    + intros event Hevent. rewrite Hnotin by tauto.
      subst s1. simpl. apply lookup_insert_ne. tauto.
Qed.



Lemma VALID_EVENTS_NoDup : NoDup VALID_EVENTS.
Proof. apply (bool_decide_unpack _). vm_compute. reflexivity. Qed.

(** ** What a computation keeps *)

(** What every step of a computation keeps, the computation keeps. *)
Lemma bind_preserves {A B : Type} (R : relation (state world)) `{!PreOrder R}
    (f : M world A) (k : A -> M world B) s :
  R s (snd (f s)) ->
  (forall a s1, R s1 (snd (k a s1))) ->
  R s (snd (bind f k s)).
Proof.
  intros Hf Hk. unfold bind. destruct (f s) as [[e|a] s1]; [exact Hf|].
  simpl in Hf. etransitivity; [exact Hf | apply Hk].
Qed.

Lemma for_each_preserves {A : Type} (R : relation (state world)) `{!PreOrder R}
    (l : list A) (body : A -> M world unit) :
  (forall x s, R s (snd (body x s))) ->
  forall s, R s (snd (for_each l body s)).
Proof.
  intros Hbody. induction l as [|x l IH]; intros s; simpl; [reflexivity|].
  apply bind_preserves; [apply _ | apply Hbody | intros _ s1; apply IH].
Qed.

#[local] Instance same_registry_preorder : PreOrder (same_registry (world := world)).
Proof.
  split; [now intros s|]. unfold same_registry. intros s1 s2 s3 H12 H23. congruence.
Qed.

#[local] Instance silent_preorder : PreOrder (silent (world := world)).
Proof.
  split; [now intros s|]. unfold silent.
  intros s1 s2 s3 [? ?] [? ?]. split; congruence.
Qed.

#[global] Instance extends_preorder : PreOrder (extends (world := world)).
Proof.
  split.
  - intros s. repeat split; try reflexivity. tauto.
  - intros s1 s2 s3 (Hd & Hl & Hk & Hc) (Hd' & Hl' & Hk' & Hc').
    repeat split.
    + congruence.
    + intros event. etransitivity; [apply Hl | apply Hl'].
    + intros event Hs. apply Hk', Hk, Hs.
    + etransitivity; [exact Hc | exact Hc'].
Qed.

Lemma same_registry_extends s s' :
  same_registry s s' -> calls s `prefix_of` calls s' -> extends s s'.
Proof.
  unfold same_registry. intros Hreg Hcalls. unfold extends. rewrite Hreg.
  repeat split; try reflexivity; [tauto | exact Hcalls].
Qed.

Lemma invoke_same_registry event_name data c s :
  same_registry s (snd (invoke event_name data c s)).
Proof.
  unfold invoke. now destruct (call c event_name data (outside s)).
Qed.

(** The two outcomes of [self.callbacks[event].append(c)]. *)
Lemma callbacks_append_cases event c s :
  (accepts event (callbacks s) /\
   callbacks_append event c s
   = (inr tt,
      State (outside s)
            (Registry (default_factory (callbacks s))
               (<[event := listeners event (callbacks s) ++ [c]]>
                  (table (callbacks s))))
            (calls s))) \/
  (~ accepts event (callbacks s) /\
   callbacks_append event c s = (inl (KeyError event), s)).
Proof.
  unfold accepts, callbacks_append, listeners.
  destruct (table (callbacks s) !! event) as [l|]; simpl.
  - left. split; [right; eauto | reflexivity].
  - destruct (default_factory (callbacks s)).
    + left. now split; [left|].
    + right. split; [|reflexivity]. intros [?|[? ?]]; discriminate.
Qed.

Lemma callbacks_append_silent event c s :
  silent s (snd (callbacks_append event c s)).
Proof.
  destruct (callbacks_append_cases event c s) as [[_ ->]|[_ ->]]; now split.
Qed.

Lemma callbacks_append_extends event c s :
  extends s (snd (callbacks_append event c s)).
Proof.
  destruct (callbacks_append_cases event c s) as [[_ ->]|[_ ->]];
    [|reflexivity].
  simpl. repeat split; simpl.
  - intros event'. rewrite listeners_insert.
    destruct (decide (event = event')) as [<-|_]; [|reflexivity].
    now apply prefix_app_r.
  - intros event' Hsome. rewrite lookup_insert.
    destruct (decide (event = event')); [eauto | exact Hsome].
  - reflexivity.
Qed.

Lemma register_callback_silent event callback s :
  silent s (snd (register_callback event callback s)).
Proof.
  destruct callback; try (now split). apply callbacks_append_silent.
Qed.

Lemma register_callback_extends event callback s :
  extends s (snd (register_callback event callback s)).
Proof.
  destruct callback; try reflexivity. apply callbacks_append_extends.
Qed.

Lemma register_universal_callback_silent callback s :
  silent s (snd (register_universal_callback callback s)).
Proof.
  unfold register_universal_callback.
  destruct (negb (callable callback)); [now split|].
  apply for_each_preserves; [apply _|].
  intros event s1. apply register_callback_silent.
Qed.

Lemma register_universal_callback_extends callback s :
  extends s (snd (register_universal_callback callback s)).
Proof.
  unfold register_universal_callback.
  destruct (negb (callable callback)); [reflexivity|].
  apply for_each_preserves; [apply _|].
  intros event s1. apply register_callback_extends.
Qed.

Lemma invoke_extends event_name data c s :
  extends s (snd (invoke event_name data c s)).
Proof.
  apply same_registry_extends; [apply invoke_same_registry|].
  unfold invoke. destruct (call c event_name data (outside s)). simpl.
  now apply prefix_app_r.
Qed.

(** What the changes of the graph, the mutators of the object and the
    listeners keep, the body of a method of the base class keeps. *)
Lemma super_preserves (R : relation (state world)) `{!PreOrder R}
    (self : mutation -> M world unit) :
  (forall s w, R s (State w (callbacks s) (calls s))) ->
  (forall m s, R s (snd (self m s))) ->
  forall code s, R s (snd (super self code s)).
Proof.
  intros Hgraph Hself code.
  induction code as [data|e|f k IH|m k IH]; intros s; simpl; try reflexivity.
  - etransitivity; [apply (Hgraph s (f (outside s))) | apply IH].
  - pose proof (Hself m s) as Hm. destruct (self m s) as [r s1].
    etransitivity; [exact Hm | apply IH].
Qed.

Lemma dispatch_preserves (R : relation (state world)) `{!PreOrder R} :
  (forall event_name data c s, R s (snd (invoke event_name data c s))) ->
  forall event_name data s, R s (snd (dispatch_callbacks event_name data s)).
Proof.
  intros Hinvoke event_name data s. unfold dispatch_callbacks.
  destruct (table (callbacks s) !! event_name) as [cs|]; [|reflexivity].
  apply for_each_preserves; [apply _|]. intros c s1. apply Hinvoke.
Qed.

Lemma perform_unfold depth m s :
  perform (S depth) m s
  = bind (super (perform depth) (forwarded m))
         (fun data' => dispatch_callbacks (event_of m) (payload_of m data')) s.
Proof. destruct m; reflexivity. Qed.

(** What the changes of the graph and the listeners keep, a mutator
    keeps, however deep the base class calls the object back. *)
Lemma perform_preserves (R : relation (state world)) `{!PreOrder R} :
  (forall s w, R s (State w (callbacks s) (calls s))) ->
  (forall event_name data c s, R s (snd (invoke event_name data c s))) ->
  forall depth m s, R s (snd (perform depth m s)).
Proof.
  intros Hgraph Hinvoke. induction depth as [|depth IH]; intros m s.
  - reflexivity.
  - rewrite perform_unfold. apply bind_preserves; [apply _ | |].
    + now apply super_preserves.
    + intros data' s1. now apply dispatch_preserves.
Qed.

Lemma dispatch_same_registry event_name data s :
  same_registry s (snd (dispatch_callbacks event_name data s)).
Proof.
  apply dispatch_preserves; [apply _|]. intros. apply invoke_same_registry.
Qed.

Lemma perform_same_registry depth m s :
  same_registry s (snd (perform depth m s)).
Proof.
  apply perform_preserves; [apply _ | reflexivity |].
  intros. apply invoke_same_registry.
Qed.

Lemma super_same_registry depth code s :
  same_registry s (snd (super (perform depth) code s)).
Proof.
  apply super_preserves; [apply _ | reflexivity |].
  intros. apply perform_same_registry.
Qed.

Lemma graph_extends s (w : world) : extends s (State w (callbacks s) (calls s)).
Proof. now apply same_registry_extends. Qed.

Lemma perform_extends depth m s : extends s (snd (perform depth m s)).
Proof.
  apply perform_preserves; [apply _ | apply graph_extends |].
  intros. apply invoke_extends.
Qed.

Lemma dispatch_extends event_name data s :
  extends s (snd (dispatch_callbacks event_name data s)).
Proof. apply dispatch_preserves; [apply _|]. intros. apply invoke_extends. Qed.

Lemma run_extends depth (op : operation) s : extends s (snd (run depth op s)).
Proof.
  destruct op as [event callback|callback|event_name data|m]; simpl.
  - apply register_callback_extends.
  - apply register_universal_callback_extends.
  - apply dispatch_extends.
  - apply perform_extends.
Qed.

Lemma steps_keep_factory s s' :
  rtc step s s' ->
  default_factory (callbacks s') = default_factory (callbacks s).
Proof.
  induction 1 as [s|s s1 s' (depth & op & ->) _ IH]; [reflexivity|].
  rewrite IH. apply run_extends.
Qed.

(** ** The body of a method of the base class *)


(** ** The wrapped mutations *)

(** A dispatch is the listeners applied one after the other. *)
Lemma for_each_invoke_apply_all cs event_name data s :
  (fst (for_each cs (invoke event_name data) s),
   outside (snd (for_each cs (invoke event_name data) s)))
  = apply_all cs event_name data (outside s).
Proof.
  revert s. induction cs as [|c cs IH]; intros s; [reflexivity|].
  simpl. unfold bind, invoke at 1 3.
  destruct (call c event_name data (outside s)) as [[e|[]] w]; [reflexivity|].
  apply IH.
Qed.

Lemma dispatch_apply_all event_name data s :
  (fst (dispatch_callbacks event_name data s),
   outside (snd (dispatch_callbacks event_name data s)))
  = apply_all (listeners event_name (callbacks s)) event_name data (outside s).
Proof.
  unfold dispatch_callbacks, listeners.
  destruct (table (callbacks s) !! event_name) as [cs|]; [|reflexivity].
  apply for_each_invoke_apply_all.
Qed.



End Events.

(** ** Scripts of mutations *)

Section Scripts.

Context {world : Type} `{!Network world} `{!Callables world}.

Implicit Types (s : state world) (c h : handle) (cs : list handle).
Implicit Types (m : mutation) (e : exn) (data : value).





End Scripts.

(** * The event-dispatch contract *)

Section Contract.

Context {world : Type} `{!Network world} `{!Callables world}.

Implicit Types (s : state world) (c h : handle) (cs : list handle).
Implicit Types (m : mutation) (e : exn) (data : value).


(** C2.  A dispatch applies the listeners of the event's sequence one
    after the other, in the order of registration, to the event name
    and the payload, each on the world that the one before it left, up
    to the first that raises; its outcome and the world it leaves are
    theirs.  It calls listeners of that sequence only; a dispatch that
    returns has called all of them, once for each occurrence; a listener
    registered twice is called twice; with no listener for the event the
    dispatch does nothing and returns. *)
Theorem dispatch_in_registration_order :
  (forall event_name data s,
      (fst (dispatch_callbacks event_name data s),
       outside (snd (dispatch_callbacks event_name data s)))
      = apply_all (listeners event_name (callbacks s)) event_name data
          (outside s)) /\
  (forall event_name data c s,
      listeners event_name (callbacks s) = [c] ->
      dispatch_callbacks event_name data s
      = (fst (call c event_name data (outside s)),
         State (snd (call c event_name data (outside s))) (callbacks s)
               (calls s ++ [Invocation c event_name data]))) /\
  (forall event_name data s,
      exists n : nat,
        calls (snd (dispatch_callbacks event_name data s))
        = calls s
          ++ invocations event_name data
               (take n (listeners event_name (callbacks s)))) /\
  (forall event_name data s s',
      dispatch_callbacks event_name data s = (inr tt, s') ->
      calls s' = calls s
                 ++ invocations event_name data
                      (listeners event_name (callbacks s))) /\
  (forall event_name data h s s1 s2 s3,
      register_callback event_name (VFunc h) s = (inr tt, s1) ->
      register_callback event_name (VFunc h) s1 = (inr tt, s2) ->
      dispatch_callbacks event_name data s2 = (inr tt, s3) ->
      calls s3 = calls s
                 ++ invocations event_name data
                      (listeners event_name (callbacks s) ++ [h; h])) /\
  (forall event_name data s,
      listeners event_name (callbacks s) = [] ->
      dispatch_callbacks event_name data s = (inr tt, s)).
Proof.
  split; [|split; [|split; [|split; [|split]]]].
  - apply dispatch_apply_all.
  - intros event_name data c s. unfold dispatch_callbacks, listeners.
    destruct (table (callbacks s) !! event_name) as [cs|]; simpl;
      [|discriminate].
    intros ->. simpl. unfold bind, invoke.
    now destruct (call c event_name data (outside s)) as [[e|[]] w].
  - apply dispatch_prefix.
  - intros event_name data s s' Hrun. now apply dispatch_returns in Hrun.
  - intros event_name data h s s1 s2 s3 H1 H2 Hrun.
    apply callbacks_append_returns in H1, H2. apply dispatch_returns in Hrun as [-> _].
    subst s2 s1. unfold listeners. simpl. rewrite !lookup_insert_eq. simpl.
    now rewrite <- app_assoc.
  - apply dispatch_nobody.
Qed.


(** C6.  Registering an argument that is not callable raises
    [ValueError] and leaves the object, and so the number of listeners
    of the event, as it was. *)
Theorem register_callback_not_callable event callback s :
  callable callback = false ->
  register_callback event callback s
  = (inl (ValueError "callback must be callable."), s) /\
  length (listeners event
            (callbacks (snd (register_callback event callback s))))
  = length (listeners event (callbacks s)).
Proof. intros Hcb. destruct callback; try discriminate Hcb; now split. Qed.

(** C7.  When the listeners before [c] have returned and [c] raises,
    the dispatch raises the exception of [c], the listeners registered
    after [c] are not called, and the mutation that dispatched raises
    that exception to its caller. *)
Theorem listener_failure_aborts :
  (forall event_name data pre c post s s1 e w,
      table (callbacks s) !! event_name = Some (pre ++ c :: post) ->
      for_each pre (invoke event_name data) s = (inr tt, s1) ->
      call c event_name data (outside s1) = (inl e, w) ->
      dispatch_callbacks event_name data s
      = (inl e,
         State w (callbacks s)
               (calls s ++ invocations event_name data (pre ++ [c])))) /\
  (forall depth m pre c post s s0 data' s1 e w,
      super (perform depth) (forwarded m) s = (inr data', s0) ->
      table (callbacks s) !! event_of m = Some (pre ++ c :: post) ->
      for_each pre (invoke (event_of m) (payload_of m data')) s0 = (inr tt, s1) ->
      call c (event_of m) (payload_of m data') (outside s1) = (inl e, w) ->
      perform (S depth) m s
      = (inl e,
         State w (callbacks s)
               (calls s0
                ++ invocations (event_of m) (payload_of m data') (pre ++ [c])))).
Proof.
  assert (Hdispatch : forall event_name data pre c post s s1 e w,
      table (callbacks s) !! event_name = Some (pre ++ c :: post) ->
      for_each pre (invoke event_name data) s = (inr tt, s1) ->
      call c event_name data (outside s1) = (inl e, w) ->
      dispatch_callbacks event_name data s
      = (inl e,
         State w (callbacks s)
               (calls s ++ invocations event_name data (pre ++ [c])))).
  { intros event_name data pre c post s s1 e w Hcs Hpre Hc.
    unfold dispatch_callbacks. rewrite Hcs.
    now apply for_each_invoke_raises with (s1 := s1). }
  split; [exact Hdispatch|].
  intros depth m pre c post s s0 data' s1 e w Hbase Hcs Hpre Hc.
  rewrite perform_unfold. unfold bind. rewrite Hbase.
  pose proof (super_same_registry depth (forwarded m) s) as Hreg.
  rewrite Hbase in Hreg. unfold same_registry in Hreg. simpl in Hreg.
  rewrite (Hdispatch _ _ pre c post s0 s1 e w);
    [now rewrite Hreg | now rewrite Hreg | exact Hpre | exact Hc].
Qed.

(** C9.  A registration of a callable for the event [k] that returns
    has put the callable at the end of the sequence of [k] and has left
    the entry of every other event, and the rest of the object, as they
    were. *)
Theorem register_callback_appends k callback s s' :
  callable callback = true ->
  register_callback k callback s = (inr tt, s') ->
  exists h,
    callback = VFunc h /\
    listeners k (callbacks s') = listeners k (callbacks s) ++ [h] /\
    (forall k', k' <> k ->
       table (callbacks s') !! k' = table (callbacks s) !! k') /\
    default_factory (callbacks s') = default_factory (callbacks s) /\
    outside s' = outside s /\
    calls s' = calls s.
Proof.
  intros Hcb Hreg. destruct callback as [| | | | | |h]; try discriminate Hcb.
  exists h. apply callbacks_append_returns in Hreg. subst s'. simpl.
  rewrite listeners_insert, decide_True by reflexivity.
  repeat split. intros k' Hk'. now apply lookup_insert_ne.
Qed.


End Contract.

(** * The contract on the sample instance *)



Lemma dispatch_in_registration_order_witness :
  calls (Sample.after (dispatch_callbacks EVENT_ADD_NODE (VInt 1)) Sample.twice)
  = [Invocation 0 EVENT_ADD_NODE (VInt 1); Invocation 0 EVENT_ADD_NODE (VInt 1)].
Proof.
  apply (proj1 (proj2 (proj2 (proj2 (proj2 dispatch_in_registration_order))))
           EVENT_ADD_NODE (VInt 1) 0%nat Sample.fresh
           (Sample.after (register_callback EVENT_ADD_NODE (VFunc 0%nat)) Sample.fresh)
           Sample.twice);
    reflexivity.
Defined.


Lemma register_callback_not_callable_witness :
  register_callback EVENT_ADD_EDGE (VInt 3) Sample.twice
  = (inl (ValueError "callback must be callable."), Sample.twice).
Proof.
  apply (proj1 (register_callback_not_callable
                  EVENT_ADD_EDGE (VInt 3) Sample.twice eq_refl)).
Defined.

Lemma listener_failure_aborts_witness :
  perform 1 (AddNode (VStr "a") VNone) Sample.three
  = (inl (Exception "RuntimeError" "listener"),
     State 1%nat (callbacks Sample.three)
       [Invocation 0 EVENT_ADD_NODE (payload_of (AddNode (VStr "a") VNone) (VDict []));
        Invocation 1 EVENT_ADD_NODE (payload_of (AddNode (VStr "a") VNone) (VDict []))]).
Proof.
  exact (proj2 listener_failure_aborts
           0%nat (AddNode (VStr "a") VNone) [0%nat] 1%nat [2%nat] Sample.three
           (snd (super (perform 0) (forwarded (AddNode (VStr "a") VNone)) Sample.three))
           (VDict [])
           (Sample.after
              (invoke EVENT_ADD_NODE (payload_of (AddNode (VStr "a") VNone) (VDict []))
                 0%nat)
              (snd (super (perform 0) (forwarded (AddNode (VStr "a") VNone))
                      Sample.three)))
           (Exception "RuntimeError" "listener") 1%nat
           eq_refl eq_refl eq_refl eq_refl).
Defined.

Lemma register_callback_appends_witness :
  exists h : handle,
    VFunc 4 = VFunc h /\
    listeners EVENT_ADD_NODE
      (callbacks (Sample.after (register_callback EVENT_ADD_NODE (VFunc 4%nat))
                    Sample.twice))
    = listeners EVENT_ADD_NODE (callbacks Sample.twice) ++ [h].
Proof.
  destruct (register_callback_appends EVENT_ADD_NODE (VFunc 4%nat) Sample.twice
              (Sample.after (register_callback EVENT_ADD_NODE (VFunc 4%nat))
                 Sample.twice)
              eq_refl eq_refl)
    as (h & Hcb & Hlisteners & _).
  exists h. split; [exact Hcb | exact Hlisteners].
Defined.



(** * Further properties of the label truncation *)

Module LabelFacts.
Import Str.

Lemma lstrip_fixed (chars s : string) :
  starts_in chars s = false -> lstrip chars s = s.
Proof. destruct s as [|c s]; simpl; [reflexivity|]. now intros ->. Qed.

Lemma rstrip_fixed (chars s : string) :
  ends_in chars s = false -> rstrip chars s = s.
Proof.
  unfold ends_in, rstrip. intros Hs.
  rewrite lstrip_fixed by exact Hs. apply StrFacts.rev_involutive.
Qed.

Lemma strip_fixed (chars s : string) :
  starts_in chars s = false -> ends_in chars s = false -> strip chars s = s.
Proof.
  intros Hstart Hend. unfold strip.
  rewrite lstrip_fixed by exact Hstart. now apply rstrip_fixed.
Qed.

Lemma starts_in_take (chars s : string) (n : nat) :
  starts_in chars s = false ->
  starts_in chars "..." = false ->
  starts_in chars (take n s +:+ "...") = false.
Proof. destruct n as [|n], s as [|c s]; simpl; intros Hs Hdots; assumption. Qed.

Lemma ends_in_ellipsis (chars s : string) :
  ends_in chars (s +:+ "...") = starts_in chars "...".
Proof. unfold ends_in. now rewrite StrFacts.rev_app. Qed.

Lemma length_strip (chars s : string) :
  (String.length (strip chars s) <= String.length s)%nat.
Proof.
  destruct (StrFacts.strip_spec chars s) as (pre & post & Hs & _).
  rewrite Hs at 2. rewrite !StrFacts.length_app. lia.
Qed.

(** The length of [s[:stop]], for every bound. *)
Lemma length_slice_to (s : string) (stop : Z) :
  Z.of_nat (String.length (slice_to s stop))
  = let len := Z.of_nat (String.length s) in
    if stop <? 0 then Z.max 0 (stop + len) else Z.min stop len.
Proof.
  unfold slice_to. cbv zeta.
  set (stop' := if stop <? 0 then _ else _).
  assert (0 <= stop' <= Z.of_nat (String.length s)) as Hstop'.
  { subst stop'. destruct (Z.ltb_spec stop 0); lia. }
  rewrite StrFacts.length_take by lia. lia.
Qed.

(** The length of the result, in the two branches of the method. *)
Lemma length_result (old_label : string) (max_len : Z) :
  let len := Z.of_nat (String.length (strip "[]'" old_label)) in
  Z.of_nat (String.length (strip_and_truncate_label old_label max_len))
  = if len <=? max_len then len
    else (if max_len - 3 <? 0 then Z.max 0 (max_len - 3 + len)
          else Z.min (max_len - 3) len) + 3.
Proof.
  cbv zeta. unfold strip_and_truncate_label.
  set (label := strip "[]'" old_label).
  destruct (Z.of_nat (String.length label) <=? max_len); [reflexivity|].
  rewrite StrFacts.length_app, Nat2Z.inj_add, length_slice_to. reflexivity.
Qed.

(** The result begins and ends as a stripped label does. *)
Lemma result_ends (old_label : string) (max_len : Z) :
  starts_in "[]'" (strip_and_truncate_label old_label max_len) = false /\
  ends_in "[]'" (strip_and_truncate_label old_label max_len) = false.
Proof.
  unfold strip_and_truncate_label.
  destruct (StrFacts.strip_spec "[]'" old_label) as (_ & _ & _ & _ & _ & Hstart & Hend).
  set (label := strip "[]'" old_label) in *.
  destruct (Z.of_nat (String.length label) <=? max_len); [now split|].
  unfold slice_to. split.
  - now apply starts_in_take.
  - now rewrite ends_in_ellipsis.
Qed.

End LabelFacts.

(** X1.  With a maximum of at least 3 the result is never longer than
    the maximum, and never longer than the label it was made from. *)
Theorem label_length_bound (old_label : string) (max_len : Z) :
  3 <= max_len ->
  Z.of_nat (String.length (strip_and_truncate_label old_label max_len)) <= max_len /\
  (String.length (strip_and_truncate_label old_label max_len)
   <= String.length old_label)%nat.
Proof.
  intros Hmax.
  pose proof (LabelFacts.length_result old_label max_len) as Hlen.
  pose proof (LabelFacts.length_strip "[]'" old_label) as Hstrip.
  cbv zeta in Hlen.
  destruct (Z.leb_spec (Z.of_nat (String.length (Str.strip "[]'" old_label))) max_len);
    destruct (Z.ltb_spec (max_len - 3) 0); lia.
Qed.

Lemma label_length_bound_witness :
  Z.of_nat (String.length (strip_and_truncate_label "['Person']" 5)) <= 5 /\
  (String.length (strip_and_truncate_label "['Person']" 5)
   <= String.length "['Person']")%nat.
Proof. apply (label_length_bound "['Person']" 5). lia. Defined.

(** X2.  With a maximum below 3, a stripped label longer than the
    maximum loses its last [3 - max_len] characters (all of them when it
    has fewer) and gets the ellipsis: the result is longer than the
    maximum. *)
Theorem label_truncation_small_maximum (old_label : string) (max_len : Z) :
  let label := Str.strip "[]'" old_label in
  let len := Z.of_nat (String.length label) in
  max_len < 3 ->
  max_len < len ->
  strip_and_truncate_label old_label max_len
  = Str.take (Z.to_nat (len - (3 - max_len))) label +:+ "..." /\
  Z.of_nat (String.length (strip_and_truncate_label old_label max_len))
  = Z.max 0 (len - (3 - max_len)) + 3 /\
  max_len < Z.of_nat (String.length (strip_and_truncate_label old_label max_len)).
Proof.
  intros label len Hmax Hlen. unfold strip_and_truncate_label. fold label.
  destruct (Z.leb_spec (Z.of_nat (String.length label)) max_len) as [Hle|_];
    [subst len; lia|].
  assert (Hslice : Str.slice_to label (max_len - 3)
                   = Str.take (Z.to_nat (len - (3 - max_len))) label).
  { unfold Str.slice_to. destruct (Z.ltb_spec (max_len - 3) 0); [|lia].
    fold len. f_equal. lia. }
  split; [now rewrite Hslice|].
  rewrite StrFacts.length_app. simpl String.length at 2 4.
  pose proof (LabelFacts.length_slice_to label (max_len - 3)) as Hl.
  cbv zeta in Hl. fold len in Hl.
  destruct (Z.ltb_spec (max_len - 3) 0); lia.
Qed.

Lemma label_truncation_small_maximum_witness :
  strip_and_truncate_label "[abcdef]" 2 = "abcde..." /\
  Z.of_nat (String.length (strip_and_truncate_label "[abcdef]" 2)) = 8 /\
  2 < Z.of_nat (String.length (strip_and_truncate_label "[abcdef]" 2)).
Proof. apply (label_truncation_small_maximum "[abcdef]" 2); simpl; lia. Defined.

(** X3.  Whatever the maximum, the result neither begins nor ends with
    a square bracket or a single quote, so that stripping it again
    changes nothing. *)
Theorem label_result_stripped (old_label : string) (max_len : Z) :
  Str.starts_in "[]'" (strip_and_truncate_label old_label max_len) = false /\
  Str.ends_in "[]'" (strip_and_truncate_label old_label max_len) = false /\
  Str.strip "[]'" (strip_and_truncate_label old_label max_len)
  = strip_and_truncate_label old_label max_len.
Proof.
  destruct (LabelFacts.result_ends old_label max_len) as [Hstart Hend].
  split; [exact Hstart|]. split; [exact Hend|].
  now apply LabelFacts.strip_fixed.
Qed.

(** X4.  With a maximum of at least 3, truncating a truncated label
    again with the same maximum returns it unchanged. *)
Theorem label_truncation_idempotent (old_label : string) (max_len : Z) :
  3 <= max_len ->
  strip_and_truncate_label (strip_and_truncate_label old_label max_len) max_len
  = strip_and_truncate_label old_label max_len.
Proof.
  intros Hmax.
  destruct (LabelFacts.result_ends old_label max_len) as [Hstart Hend].
  pose proof (LabelFacts.length_result old_label max_len) as Hlen.
  cbv zeta in Hlen.
  set (result := strip_and_truncate_label old_label max_len) in *.
  unfold strip_and_truncate_label at 1.
  rewrite (LabelFacts.strip_fixed "[]'" result Hstart Hend).
  destruct (Z.leb_spec (Z.of_nat (String.length result)) max_len); [reflexivity|].
  destruct (Z.leb_spec (Z.of_nat (String.length (Str.strip "[]'" old_label))) max_len);
    destruct (Z.ltb_spec (max_len - 3) 0); lia.
Qed.

Lemma label_truncation_idempotent_witness :
  strip_and_truncate_label (strip_and_truncate_label "[verylongname]" 10) 10
  = strip_and_truncate_label "[verylongname]" 10.
Proof. apply (label_truncation_idempotent "[verylongname]" 10). lia. Defined.

(** * Further properties of the flattening *)

Module FlattenFacts.
Import Dict.

Lemma get_app (k : string) (l l' : list (string * value)) :
  get k (l ++ l') = match get k l with Some v => Some v | None => get k l' end.
Proof.
  induction l as [|[k' v'] l IH]; simpl; [reflexivity|].
  now destruct (String.eqb k k').
Qed.

Lemma get_set (k k' : string) (v : value) (d : dict) :
  get k (set k' v d) = if String.eqb k k' then Some v else get k d.
Proof.
  induction d as [|[k0 v0] d IH]; simpl; [reflexivity|].
  destruct (String.eqb_spec k' k0) as [->|Hne]; simpl.
  - now destruct (String.eqb k k0).
  - rewrite IH. destruct (String.eqb_spec k k0) as [->|Hne'];
      [|reflexivity].
    destruct (String.eqb_spec k0 k') as [->|_]; [contradiction | reflexivity].
Qed.

(** In [dict(items)] the last item of a key is the one that counts. *)
Lemma get_update (k : string) (acc : dict) (items : list (string * value)) :
  get k (update acc items)
  = match get k (rev items) with Some v => Some v | None => get k acc end.
Proof.
  revert acc. induction items as [|[k' v'] items IH]; intros acc; simpl;
    [reflexivity|].
  rewrite IH, get_app, get_set. simpl.
  destruct (get k (rev items)); [reflexivity|].
  now destruct (String.eqb k k').
Qed.

Lemma get_of_items (k : string) (items : list (string * value)) :
  get k (of_items items) = get k (rev items).
Proof. unfold of_items. rewrite get_update. now destruct (get k (rev items)). Qed.

Lemma flatten_items_app (parent_key sep : string) (d d' : dict) :
  flatten_items parent_key sep (d ++ d')
  = flatten_items parent_key sep d ++ flatten_items parent_key sep d'.
Proof.
  induction d as [|[k v] d IH]; [reflexivity|].
  simpl. rewrite IH. destruct v; simpl; try reflexivity. now rewrite <- app_assoc.
Qed.

Lemma flatten_items_flat_prefixed (parent_key sep : string) (d : dict) :
  parent_key <> "" ->
  flat d ->
  flatten_items parent_key sep d
  = map (fun kv => (parent_key +:+ sep +:+ fst kv, snd kv)) d.
Proof.
  intros Hparent%String.eqb_neq.
  induction 1 as [|[k v] d Hv _ IH]; [reflexivity|].
  simpl in *. rewrite IH, Hparent. now destruct v.
Qed.

Lemma flatten_items_separator (sep sep' : string) (d : dict) :
  flatten_items "" sep d = flatten_items "" sep' d.
Proof.
  induction d as [|[k v] d IH]; [reflexivity|].
  simpl. now rewrite IH.
Qed.

Lemma flatten_wf (d : dict) (parent_key sep : string) :
  wf (flatten d parent_key sep).
Proof. rewrite flatten_unfold. apply DictFacts.of_items_wf. Qed.

End FlattenFacts.

(** X5.  Whatever the arguments, the result of [flatten] is a single
    level: none of its values is a mapping, and no key occurs twice. *)
Theorem flatten_single_level (d : dict) (parent_key sep : string) :
  Dict.flat (flatten d parent_key sep) /\ Dict.wf (flatten d parent_key sep).
Proof.
  split; [apply flatten_value_flat | apply FlattenFacts.flatten_wf].
Qed.

(** X6.  With a non-empty [parent_key], a dictionary none of whose
    values is a mapping comes out with every key prefixed by
    [parent_key] and [sep], in the same order and with the same
    values. *)
Theorem flatten_prefixes_keys (d : dict) (parent_key sep : string) :
  parent_key <> "" ->
  Dict.wf d ->
  Dict.flat d ->
  flatten d parent_key sep
  = map (fun kv => (parent_key +:+ sep +:+ fst kv, snd kv)) d.
Proof.
  intros Hparent Hwf Hflat.
  rewrite flatten_unfold, FlattenFacts.flatten_items_flat_prefixed by assumption.
  apply DictFacts.of_items_wf_id. unfold Dict.wf, Dict.keys in *.
  rewrite map_map. simpl.
  change (NoDup ((fun k => String.app parent_key (String.app sep k)) <$> map fst d)
          -> NoDup (map (fun x => parent_key +:+ sep +:+ fst x) d))
    with (NoDup (map (fun k => parent_key +:+ sep +:+ k) (map fst d))
          -> NoDup (map (fun x => parent_key +:+ sep +:+ fst x) d)) in *.
  rewrite <- (map_map fst (fun k => parent_key +:+ sep +:+ k)).
  apply NoDup_fmap_2; [|exact Hwf].
  intros k k' Hk. now apply String.app_inj, String.app_inj in Hk.
Qed.

Lemma flatten_prefixes_keys_witness :
  flatten [("x", VInt 1); ("y", VList [VDict []])] "p" "."
  = [("p.x", VInt 1); ("p.y", VList [VDict []])].
Proof.
  apply (flatten_prefixes_keys [("x", VInt 1); ("y", VList [VDict []])] "p" ".").
  - discriminate.
  - unfold Dict.wf. apply (bool_decide_unpack _). vm_compute. reflexivity.
  - unfold Dict.flat. repeat constructor.
Defined.

(** X7.  Without a [parent_key] the separator is never used: every
    [sep] gives the same result. *)
Theorem flatten_separator_unused (d : dict) (sep sep' : string) :
  flatten d "" sep = flatten d "" sep'.
Proof.
  rewrite !flatten_unfold.
  now rewrite (FlattenFacts.flatten_items_separator sep sep').
Qed.

(** X8.  When two entries come out under one key, the later one wins:
    the value of a key in the result is the value of the last item that
    the loop made for that key.  So a value that is not a mapping, at
    the end of the dictionary, is found under its key, and so is every
    entry of a nested mapping at the end of the dictionary. *)
Theorem flatten_last_wins :
  (forall (d : dict) (parent_key sep k : string),
      Dict.get k (flatten d parent_key sep)
      = Dict.get k (rev (flatten_items parent_key sep d))) /\
  (forall (d : dict) (sep k : string) (v : value),
      is_mapping v = false ->
      Dict.get k (flatten (d ++ [(k, v)]) "" sep) = Some v) /\
  (forall (d nested : dict) (parent_key sep k0 k : string) (v : value),
      Dict.get k (flatten nested "" "_") = Some v ->
      Dict.get k (flatten (d ++ [(k0, VDict nested)]) parent_key sep) = Some v).
Proof.
  assert (Hget : forall (d : dict) (parent_key sep k : string),
             Dict.get k (flatten d parent_key sep)
             = Dict.get k (rev (flatten_items parent_key sep d))).
  { intros d parent_key sep k. rewrite flatten_unfold.
    apply FlattenFacts.get_of_items. }
  split; [exact Hget|]. split.
  - intros d sep k v Hv. rewrite Hget, FlattenFacts.flatten_items_app.
    rewrite rev_app_distr. replace (flatten_items "" sep [(k, v)]) with [(k, v)]
      by (now destruct v).
    simpl. now rewrite String.eqb_refl.
  - intros d nested parent_key sep k0 k v Hk.
    rewrite Hget, FlattenFacts.flatten_items_app, rev_app_distr.
    cbn [flatten_items]. rewrite app_nil_r.
    change (flatten_value (VDict nested) "" "_") with (flatten nested "" "_").
    rewrite FlattenFacts.get_app.
    assert (Hrev : Dict.get k (rev (flatten nested "" "_")) = Some v).
    { pose proof (FlattenFacts.flatten_wf nested "" "_") as Hwf.
      rewrite <- FlattenFacts.get_of_items, DictFacts.of_items_wf_id; assumption. }
    now rewrite Hrev.
Qed.

Lemma flatten_last_wins_witness :
  Dict.get "x" (flatten ([("a", VDict [("x", VInt 1)])] ++ [("x", VInt 2)]) "" "_")
  = Some (VInt 2).
Proof.
  apply (proj1 (proj2 flatten_last_wins) [("a", VDict [("x", VInt 1)])] "_" "x" (VInt 2)).
  reflexivity.
Defined.

(** * Further properties of the registry and of the dispatch *)

Section FurtherContract.

Context {world : Type} `{!Network world} `{!Callables world}.

Implicit Types (s : state world) (c h : handle) (cs : list handle).
Implicit Types (m : mutation) (e : exn) (data : value).

(** X9.  Whether they return or raise, a dispatch and a mutator leave
    the registry as it was: a dispatch for an event without entry makes
    no entry, and neither the base operation, the mutators it calls on
    the object, nor the listeners register or remove a listener.  The
    calls made before stay in the history. *)
Theorem mutators_keep_registry :
  (forall event_name data s,
      callbacks (snd (dispatch_callbacks event_name data s)) = callbacks s) /\
  (forall depth m s,
      callbacks (snd (perform depth m s)) = callbacks s /\
      calls s `prefix_of` calls (snd (perform depth m s))).
Proof.
  split.
  - apply dispatch_same_registry.
  - intros depth m s. split; [apply perform_same_registry|].
    apply perform_extends.
Qed.

(** X10.  On an object without listener for its event, a mutator adds
    nothing to the operation of the base class: it has the outcome of
    that operation and leaves the object as that operation leaves it,
    whatever listeners the other events have. *)
Theorem mutator_without_listeners depth m s :
  listeners (event_of m) (callbacks s) = [] ->
  perform (S depth) m s
  = bind (super (perform depth) (forwarded m)) (fun _ => ret tt) s.
Proof.
  intros Hnone. rewrite perform_unfold. unfold bind.
  pose proof (super_same_registry depth (forwarded m) s) as Hreg.
  destruct (super (perform depth) (forwarded m) s) as [[e|data'] s1];
    [reflexivity|].
  apply dispatch_nobody. unfold same_registry in Hreg. simpl in Hreg.
  now rewrite Hreg.
Qed.

(** X11.  Whether it returns or raises, a registration calls no
    listener and does not touch the world of the base class. *)
Theorem registration_is_silent :
  (forall event callback s,
      outside (snd (register_callback event callback s)) = outside s /\
      calls (snd (register_callback event callback s)) = calls s) /\
  (forall callback s,
      outside (snd (register_universal_callback callback s)) = outside s /\
      calls (snd (register_universal_callback callback s)) = calls s).
Proof.
  split.
  - apply register_callback_silent.
  - apply register_universal_callback_silent.
Qed.

(** X12.  [register_callback] returns exactly when the argument is
    callable and the registry can take a listener for the event.  For a
    callable and a plain dictionary without the event it raises
    [KeyError] with the event and changes nothing; an argument that is
    not callable gets [ValueError] even then. *)
Theorem register_callback_outcome event callback s :
  ((exists s', register_callback event callback s = (inr tt, s')) <->
   callable callback = true /\ accepts event (callbacks s)) /\
  (callable callback = true -> ~ accepts event (callbacks s) ->
   register_callback event callback s = (inl (KeyError event), s)) /\
  (callable callback = false -> ~ accepts event (callbacks s) ->
   register_callback event callback s
   = (inl (ValueError "callback must be callable."), s)).
Proof.
  destruct callback as [| | | | | |h]; simpl;
    try (split;
         [split; [intros [s' Hs']; discriminate Hs' | intros [Hcb _]; discriminate Hcb]
         |split; [intros Hcb; discriminate Hcb | reflexivity]]).
  destruct (callbacks_append_cases event h s) as [[Hacc Hrun]|[Hacc Hrun]];
    rewrite Hrun.
  - split; [split; [intros _; now split | intros _; eauto]|].
    split; [intros _ Hno; now destruct Hno | intros Hcb; discriminate Hcb].
  - split; [split; [intros [s' Hs']; discriminate Hs' | intros [_ Hyes]; now destruct Hacc]|].
    split; [reflexivity | intros Hcb; discriminate Hcb].
Qed.

(** X13.  [register_universal_callback] is not all or nothing.  On a
    plain dictionary that has the entries of the first events of
    [VALID_EVENTS] and lacks the next one, it raises [KeyError] with
    that event, and the listener stays registered for the events before
    it. *)
Theorem register_universal_callback_partial h s pre event post :
  VALID_EVENTS = pre ++ event :: post ->
  (forall event', In event' pre -> accepts event' (callbacks s)) ->
  ~ accepts event (callbacks s) ->
  exists s',
    register_universal_callback (VFunc h) s = (inl (KeyError event), s') /\
    (forall event', In event' pre ->
       listeners event' (callbacks s')
       = listeners event' (callbacks s) ++ [h]) /\
    (forall event', ~ In event' pre ->
       table (callbacks s') !! event' = table (callbacks s) !! event').
Proof.
  intros Hsplit Hpre Hevent.
  pose proof VALID_EVENTS_NoDup as Hnd. rewrite Hsplit in Hnd.
  apply NoDup_app in Hnd as (Hnd & Hdisj & _).
  destruct (register_each pre h s Hnd Hpre)
    as (s1 & Hrun & _ & _ & Hdef & Hin & Hnotin).
  assert (Hfresh : ~ In event pre).
  { intros Hev%list_elem_of_In. apply (Hdisj event Hev). left. }
  exists s1.
  change (register_universal_callback (VFunc h) s)
    with (for_each VALID_EVENTS
            (fun event_name => register_callback event_name (VFunc h)) s).
  rewrite Hsplit, for_each_app. unfold bind at 1. rewrite Hrun.
  simpl. unfold bind.
  destruct (callbacks_append_cases event h s1) as [[Hacc _]|[_ ->]].
  - exfalso. apply Hevent. unfold accepts in *.
    now rewrite <- Hdef, <- (Hnotin event Hfresh).
  - repeat split.
    + intros event' Hevent'. unfold listeners at 1. now rewrite Hin.
    + exact Hnotin.
Qed.

(** X14.  Along any sequence of method calls, returning or raising, the
    object only grows: the registry stays of the same kind, the
    listeners of every event stay registered, in their order and before
    the later ones, no entry goes away, and the calls made stay in the
    history. *)
Theorem listeners_persist s s' :
  rtc step s s' -> extends s s'.
Proof.
  induction 1 as [s|s s1 s' (depth & op & ->) _ IH]; [reflexivity|].
  etransitivity; [apply run_extends | exact IH].
Qed.

(** X15.  On an object built without [callbacks], after any sequence of
    method calls, registering a callable returns, for one event,
    whatever its name, and for all events. *)
Theorem default_registry_takes_all (w : world) s :
  rtc step (init w None) s ->
  (forall event h, exists s', register_callback event (VFunc h) s = (inr tt, s')) /\
  (forall h, exists s', register_universal_callback (VFunc h) s = (inr tt, s')).
Proof.
  intros Hdef%steps_keep_factory. simpl in Hdef.
  assert (Hacc : forall event, accepts event (callbacks s)) by (intros event; now left).
  split.
  - intros event h. simpl. apply callbacks_append_accepted, Hacc.
  - intros h.
    destruct (register_each VALID_EVENTS h s VALID_EVENTS_NoDup) as (s' & Hrun & _);
      [intros event _; apply Hacc|].
    now exists s'.
Qed.

End FurtherContract.

Lemma mutator_without_listeners_witness :
  perform 2 (AddNodeData (VStr "a") VNone) Sample.twice
  = bind (super (perform 1) (forwarded (AddNodeData (VStr "a") VNone)))
         (fun _ => ret tt) Sample.twice.
Proof.
  apply (mutator_without_listeners 1%nat (AddNodeData (VStr "a") VNone) Sample.twice).
  reflexivity.
Defined.

Lemma register_callback_outcome_witness :
  register_callback EVENT_ADD_EDGE (VFunc 0) Sample.plain
  = (inl (KeyError EVENT_ADD_EDGE), Sample.plain).
Proof.
  apply (proj1 (proj2 (register_callback_outcome
                         EVENT_ADD_EDGE (VFunc 0) Sample.plain))).
  - reflexivity.
  - unfold accepts. intros [Hd|[l Hl]]; [discriminate Hd | discriminate Hl].
Defined.

Lemma register_universal_callback_partial_witness :
  exists s' : state nat,
    register_universal_callback (VFunc 0) (init 0%nat (Some only_add_node))
    = (inl (KeyError EVENT_ADD_NODE_DATA), s') /\
    listeners EVENT_ADD_NODE (callbacks s') = [0%nat].
Proof.
  destruct (register_universal_callback_partial
              0%nat (init 0%nat (Some only_add_node))
              [EVENT_ADD_NODE] EVENT_ADD_NODE_DATA
              [EVENT_ADD_NODE_PROPERTY; EVENT_ADD_EDGE; EVENT_ADD_EDGE_DATA])
    as (s' & Hrun & Hin & _).
  - reflexivity.
  - intros event' [<-|[]]. right. eexists. reflexivity.
  - unfold accepts. intros [Hd|[l Hl]]; [discriminate Hd | discriminate Hl].
  - exists s'. split; [exact Hrun|]. apply (Hin EVENT_ADD_NODE). now left.
Defined.

Lemma listeners_persist_witness : extends Sample.fresh Sample.three.
Proof.
  apply (listeners_persist Sample.fresh Sample.three).
  eapply rtc_l; [exists 0%nat, (OpRegister EVENT_ADD_NODE (VFunc 0)); reflexivity|].
  eapply rtc_l; [exists 0%nat, (OpRegister EVENT_ADD_NODE (VFunc 1)); reflexivity|].
  eapply rtc_l; [exists 0%nat, (OpRegister EVENT_ADD_NODE (VFunc 2)); reflexivity|].
  apply rtc_refl.
Defined.

Lemma default_registry_takes_all_witness :
  exists s' : state nat,
    register_universal_callback (VFunc 4)
      (Sample.after (perform 1 (AddNode (VStr "a") VNone)) Sample.fresh)
    = (inr tt, s').
Proof.
  refine (proj2 (default_registry_takes_all 0%nat
                   (Sample.after (perform 1 (AddNode (VStr "a") VNone)) Sample.fresh)
                   _) 4%nat).
  eapply rtc_l; [exists 1%nat, (OpMutate (AddNode (VStr "a") VNone)); reflexivity|].
  apply rtc_refl.
Defined.
